(** * Servo preferences (components/config/prefs.rs): a shallow embedding

    The JSON values of serde_json, the dynamic preference values of
    pref_util, the key/value override reader [read_prefs_map], user
    override application [add_user_prefs], the lazily initialised store
    [PREFS], the reader/writer discipline of the [pref!] and [set_pref!]
    macros, and the layout-thread default supplier. *)

Set Warnings "-register-all".
From Stdlib Require Import ZArith List String Bool Lia.
From Stdlib Require Import PrimFloat FloatOps SpecFloat.
Import ListNotations.
Open Scope Z_scope.

(** ** Machine integers *)

Definition u64_modulus : Z := 2 ^ 64.
Definition i64_max : Z := 2 ^ 63 - 1.
Definition i64_min : Z := - 2 ^ 63.

(** ** serde_json values *)

(** [serde_json::Number]: a positive integer (u64), a negative integer
    (i64) or a finite float (f64). *)
Inductive Number :=
| PosInt (v : Z)   (* 0 <= v < 2^64 *)
| NegInt (v : Z)   (* -2^63 <= v < 0 *)
| NFloat (f : float).

(** The f64 nearest to an integer, as Rust's [as f64] computes it. *)
Definition f64_of_Z (z : Z) : float :=
  SF2Prim (binary_normalize FloatOps.prec FloatOps.emax z 0 false).

Definition is_i64 (n : Number) : bool :=
  match n with
  | PosInt v => v <=? i64_max
  | NegInt _ => true
  | NFloat _ => false
  end.

Definition as_i64 (n : Number) : option Z :=
  match n with
  | PosInt v => if v <=? i64_max then Some v else None
  | NegInt v => Some v
  | NFloat _ => None
  end.

Definition is_f64 (n : Number) : bool :=
  match n with
  | NFloat _ => true
  | _ => false
  end.

Definition as_f64 (n : Number) : option float :=
  match n with
  | PosInt v => Some (f64_of_Z v)
  | NegInt v => Some (f64_of_Z v)
  | NFloat f => Some f
  end.

(** [serde_json::Value]. *)
Inductive Value :=
| VNull
| VBool (b : bool)
| VNumber (n : Number)
| VString (s : string)
| VArray (a : list Value)
| VObject (o : list (string * Value)).

(** ** pref_util *)

(** [PrefValue]. *)
Inductive PrefValue :=
| PBool (b : bool)
| PInt (i : Z)
| PFloat (f : float)
| PStr (s : string)
| PArray (a : list PrefValue).

(** [serde_json::Error], reduced to its diagnostic. *)
Record JsonError := { json_error_msg : string }.

(** [PrefError]. *)
Inductive PrefError :=
| JsonParseErr (e : JsonError)
| InvalidValue (msg : string)
| NoSuchPref (key : string)
| TypeMismatch (key : string).

Definition is_some {A} (o : option A) : bool :=
  match o with Some _ => true | None => false end.

(** Modelled from the spec: [PrefValue::from_json_value] (pref_util.rs,
    not in this tree).  "returns the matching scalar kind for
    boolean/number/string nodes; for array nodes, returns [Array] only if
    every element converts successfully ..., otherwise signals failure."
    A number has a matching kind when it is an i64 or an f64. *)
Fixpoint from_json_value (v : Value) : option PrefValue :=
  match v with
  | VBool b => Some (PBool b)
  | VNumber n =>
      if is_i64 n then option_map PInt (as_i64 n)
      else if is_f64 n then option_map PFloat (as_f64 n)
      else None
  | VString s => Some (PStr s)
  | VArray a =>
      let fix elems (l : list Value) : option (list PrefValue) :=
        match l with
        | [] => Some []
        | x :: r =>
            match from_json_value x, elems r with
            | Some y, Some ys => Some (y :: ys)
            | _, _ => None
            end
        end in
      option_map PArray (elems a)
  | _ => None
  end.

(** ** The iterator [v.iter().map(|v| PrefValue::from_json_value(v))]

    The iterator is represented by the slice of the array it has not yet
    consumed; each [next] yields [from_json_value] of the head. *)

(** [Iterator::all(|v| v.is_some())]: consumes elements until one fails
    the predicate (that one is consumed too) or the iterator is empty.
    Returns the answer and the iterator left behind. *)
Fixpoint iter_all_is_some (it : list Value) : bool * list Value :=
  match it with
  | [] => (true, [])
  | x :: rest =>
      if is_some (from_json_value x) then iter_all_is_some rest
      else (false, rest)
  end.

(** [.flatten().collect()]: the [Some] payloads of what is left. *)
Fixpoint iter_flatten_collect (it : list Value) : list PrefValue :=
  match it with
  | [] => []
  | x :: rest =>
      match from_json_value x with
      | Some y => y :: iter_flatten_collect rest
      | None => iter_flatten_collect rest
      end
  end.

(** ** [Result] *)

Inductive result (A E : Type) :=
| Ok (a : A)
| Err (e : E).
Arguments Ok {A E} a.
Arguments Err {A E} e.

(** ** [read_prefs_map] *)

Section ReadPrefs.

(** [serde_json::from_str::<HashMap<String, Value>>]: the external
    parser.  A successful parse is the map's entries in its iteration
    order. *)
Variable from_str : string -> result (list (string * Value)) JsonError.

(** The [Display] rendering of a JSON value, used by [format!]. *)
Variable display : Value -> string.

Definition invalid_value (pref_value : Value) : PrefError :=
  InvalidValue ("Invalid value: " ++ display pref_value).

(** The closure [|(k, pref_value)| Ok({ ... })] of [read_prefs_map].
    The guards [n.is_i64()] / [n.is_f64()] are followed by [unwrap()] of
    [as_i64] / [as_f64], which never fails under its guard
    ([as_i64_of_is_i64], [as_f64_of_is_f64] below), so the guarded arm is
    written as a match on both. *)
Definition convert_entry (k : string) (pref_value : Value)
  : result (string * PrefValue) PrefError :=
  match pref_value with
  | VBool b => Ok (k, PBool b)
  | VNumber n =>
      match is_i64 n, as_i64 n with
      | true, Some i => Ok (k, PInt i)
      | _, _ =>
          match is_f64 n, as_f64 n with
          | true, Some f => Ok (k, PFloat f)
          | _, _ => Err (invalid_value pref_value)
          end
      end
  | VString s => Ok (k, PStr s)
  | VArray v =>
      let (all_some, array) := iter_all_is_some v in
      if all_some then Ok (k, PArray (iter_flatten_collect array))
      else Err (invalid_value pref_value)
  | _ => Err (invalid_value pref_value)
  end.

(** [.map(..).collect::<Result<HashMap<_, _>, _>>()]: stops at the first
    [Err]; otherwise the entries, keys as in the source map. *)
Fixpoint collect_entries (prefs : list (string * Value))
  : result (list (string * PrefValue)) PrefError :=
  match prefs with
  | [] => Ok []
  | (k, pref_value) :: rest =>
      match convert_entry k pref_value with
      | Err e => Err e
      | Ok kv =>
          match collect_entries rest with
          | Err e => Err e
          | Ok m => Ok (kv :: m)
          end
      end
  end.

Definition read_prefs_map (txt : string)
  : result (list (string * PrefValue)) PrefError :=
  match from_str txt with
  | Err e => Err (JsonParseErr e)
  | Ok prefs => collect_entries prefs
  end.

End ReadPrefs.

(** ** Process outcomes: a call returns, or the thread panics. *)

Inductive outcome (A : Type) :=
| Returns (a : A)
| Panics (msg : string).
Arguments Returns {A} a.
Arguments Panics {A} msg.

Definition panics {A} (o : outcome A) : bool :=
  match o with Panics _ => true | Returns _ => false end.

(** ** The store, [add_user_prefs] and [PREFS] *)

Section Store.

(** The generated schema type [gen::Prefs]. *)
Variable Prefs : Type.

(** Modelled from the spec: an Accessor Table entry of pref_util.rs (not
    in this tree), "(external_key, getter: SchemaValue -> ValueKind,
    setter: (SchemaValue, ValueKind) -> Result<(), TypeMismatch>)". *)
Record Accessor := {
  getter : Prefs -> PrefValue;
  setter : Prefs -> PrefValue -> result Prefs PrefError
}.

(** [gen::PREF_ACCESSORS], looked up by key. *)
Variable accessors : string -> option Accessor.

(** The [Debug] renderings used by [panic!] and [expect]. *)
Variable debug_pref_error : PrefError -> string.
Variable debug_json_error : JsonError -> string.

(** Modelled from the spec: [Preferences::set] (pref_util.rs, not in this
    tree): "looks up key; if absent, fails with NoSuchPref ... invokes the
    setter; if the setter rejects the kind ..., fails". *)
Definition pref_set (prefs : Prefs) (key : string) (val : PrefValue)
  : result Prefs PrefError :=
  match accessors key with
  | None => Err (NoSuchPref key)
  | Some acc => setter acc prefs val
  end.

(** Modelled from the spec: [Preferences::set_all] (pref_util.rs, not in
    this tree): "applies entries one at a time via set; on the first
    failure, returns that error immediately. Entries already applied
    before the failing one remain applied (no rollback)".  The store is
    mutated in place, so the call yields the store as it is afterwards
    together with its [Result<(), PrefError>]. *)
Fixpoint set_all (entries : list (string * PrefValue)) (prefs : Prefs)
  : Prefs * result unit PrefError :=
  match entries with
  | [] => (prefs, Ok tt)
  | (k, v) :: rest =>
      match pref_set prefs k v with
      | Err e => (prefs, Err e)
      | Ok prefs' => set_all rest prefs'
      end
  end.

(** [add_user_prefs]: [if let Err(error) = PREFS.set_all(prefs.into_iter())
    { panic!("Error setting preference: {:?}", error); }], the HashMap
    given as its entries in iteration order.  The result is the content
    of [PREFS] after the call (the unwinding panic does not undo the
    in-place writes) and whether the call returned or panicked. *)
Definition add_user_prefs (prefs : list (string * PrefValue)) (store : Prefs)
  : Prefs * outcome unit :=
  let (store', res) := set_all prefs store in
  (store',
   match res with
   | Err error => Panics ("Error setting preference: " ++ debug_pref_error error)
   | Ok tt => Returns tt
   end).

(** [serde_json::from_str::<Prefs>], the typed deserialisation. *)
Variable from_str_prefs : string -> result Prefs JsonError.

(** [resources::read_string(Resource::Preferences)]. *)
Variable preferences_resource : string.

(** The initialiser of [lazy_static! { static ref PREFS ... }]:
    [serde_json::from_str(..).expect("Failed to initialize config
    preferences.")], then [Preferences::new]. [Option::expect]'s message is
    ["<msg>: <error:?>"]. *)
Definition init_prefs : outcome Prefs :=
  match from_str_prefs preferences_resource with
  | Ok def_prefs => Returns def_prefs
  | Err e =>
      Panics ("Failed to initialize config preferences.: " ++ debug_json_error e)
  end.

(** [pref_map()] : [&PREFS]: the lazy cell is filled at the first access.
    Only an uninitialised or an initialised cell is represented: the
    poisoned [Once] left behind by a failed initialisation is not. *)
Definition pref_map (cell : option Prefs) : outcome (Prefs * option Prefs) :=
  match cell with
  | Some p => Returns (p, cell)
  | None =>
      match init_prefs with
      | Returns p => Returns (p, Some p)
      | Panics msg => Panics msg
      end
  end.

End Store.

(** ** The reader/writer discipline of [pref!] and [set_pref!]

    One preference field, a value of several machine words.  The writer is
    [set_pref!]: [values.write().unwrap()] then the in-place assignment,
    which stores the new value one word at a time, then the guard's drop.
    Each reader is [pref!]: [values.read()], [.clone()] of the field, then
    the guard's drop.  The [RwLock] admits readers while no writer holds
    it, and the writer while no reader holds it. *)

Section RwLockField.

Variable W : Type.
Variables old new : list W.

(** Assignment of word [i] of the field. *)
Fixpoint list_set (l : list W) (i : nat) (x : W) : list W :=
  match l, i with
  | [], _ => []
  | _ :: t, O => x :: t
  | h :: t, S j => h :: list_set t j x
  end.

Inductive WPc := WIdle | WWriting (i : nat) | WDone.

Inductive RPc :=
| RIdle
| RHolding
| RCloned (snap : list W)
| RDone (snap : list W).

Definition reader_holds (p : RPc) : bool :=
  match p with RHolding | RCloned _ => true | _ => false end.

Definition writer_holds (p : WPc) : bool :=
  match p with WWriting _ => true | _ => false end.

Record St := {
  mem : list W;
  wpc : WPc;
  rpc : nat -> RPc
}.

Definition upd_rpc (f : nat -> RPc) (r : nat) (p : RPc) : nat -> RPc :=
  fun r' => if Nat.eqb r' r then p else f r'.

Inductive step : St -> St -> Prop :=
| step_write_lock m f :
    (forall r, reader_holds (f r) = false) ->
    step {| mem := m; wpc := WIdle; rpc := f |}
         {| mem := m; wpc := WWriting 0; rpc := f |}
| step_write_word m i x f :
    nth_error new i = Some x ->
    step {| mem := m; wpc := WWriting i; rpc := f |}
         {| mem := list_set m i x; wpc := WWriting (S i); rpc := f |}
| step_write_unlock m i f :
    i = List.length new ->
    step {| mem := m; wpc := WWriting i; rpc := f |}
         {| mem := m; wpc := WDone; rpc := f |}
| step_read_lock m w f r :
    writer_holds w = false ->
    f r = RIdle ->
    step {| mem := m; wpc := w; rpc := f |}
         {| mem := m; wpc := w; rpc := upd_rpc f r RHolding |}
| step_read_clone m w f r :
    f r = RHolding ->
    step {| mem := m; wpc := w; rpc := f |}
         {| mem := m; wpc := w; rpc := upd_rpc f r (RCloned m) |}
| step_read_unlock m w f r s :
    f r = RCloned s ->
    step {| mem := m; wpc := w; rpc := f |}
         {| mem := m; wpc := w; rpc := upd_rpc f r (RDone s) |}.

Definition init_st : St := {| mem := old; wpc := WIdle; rpc := fun _ => RIdle |}.

Inductive reachable : St -> Prop :=
| reach_init : reachable init_st
| reach_step s s' : reachable s -> step s s' -> reachable s'.

End RwLockField.

Arguments RIdle {W}.
Arguments RHolding {W}.
Arguments RCloned {W} snap.
Arguments RDone {W} snap.

(** ** [default_layout_threads] *)

(** [std::cmp::max(num_cpus::get() * 3 / 4, 1) as i64]: usize (64-bit)
    arithmetic, the multiplication wrapping as in a release build, then
    the [as i64] reinterpretation. *)
Definition usize_wrap (x : Z) : Z := x mod u64_modulus.

Definition as_i64_of_usize (x : Z) : Z :=
  if x <=? i64_max then x else x - u64_modulus.

Definition default_layout_threads (num_cpus : Z) : Z :=
  as_i64_of_usize (Z.max (usize_wrap (num_cpus * 3) / 4) 1).

(** [#[serde(default = "default_layout_threads")] threads: i64] of
    [Layout]: the field's value, or the supplier's when it is absent. *)
Definition layout_threads (field : option Z) (num_cpus : Z) : Z :=
  match field with
  | Some threads => threads
  | None => default_layout_threads num_cpus
  end.

(** The value kind [read_prefs_map] produces from a top-level value node:
    the same boolean, string, i64 or f64, and an empty [Array] for an array
    node. *)
Definition value_image (v : Value) (p : PrefValue) : Prop :=
  match v with
  | VBool b => p = PBool b
  | VString s => p = PStr s
  | VNumber n =>
      (is_i64 n = true /\ exists i, as_i64 n = Some i /\ p = PInt i) \/
      (is_i64 n = false /\ is_f64 n = true /\ exists f, as_f64 n = Some f /\ p = PFloat f)
  | VArray _ => p = PArray []
  | VNull | VObject _ => False
  end.

(** ** Concrete inputs *)

(** A parser that returns a fixed object, and a fixed rendering. *)
Definition parse_to (obj : list (string * Value))
  : string -> result (list (string * Value)) JsonError :=
  fun _ => Ok obj.

Definition parse_fails (msg : string)
  : string -> result (list (string * Value)) JsonError :=
  fun _ => Err {| json_error_msg := msg |}.

Definition show_value : Value -> string := fun _ => "<value>"%string.

(** [{"a": [true, -1], "b": 1.5}] *)
Definition doc_array_float : list (string * Value) :=
  [("a"%string, VArray [VBool true; VNumber (NegInt (-1))]);
   ("b"%string, VNumber (NFloat 1.5%float))].

(** [{"a": [true], "b": null}] *)
Definition doc_array_null : list (string * Value) :=
  [("a"%string, VArray [VBool true]); ("b"%string, VNull)].

(** [{"a": [true, {}]}] *)
Definition doc_array_object : list (string * Value) :=
  [("a"%string, VArray [VBool true; VObject []])].

(** A run of the field machine: reader 0 clones [[0; 0]] and drops its
    guard, then [set_pref!] takes the write lock and stores the first
    word of [[1; 1]]. *)
Definition rw_rpc1 : nat -> RPc nat := upd_rpc nat (fun _ => RIdle) 0%nat RHolding.
Definition rw_rpc2 : nat -> RPc nat := upd_rpc nat rw_rpc1 0%nat (RCloned [0; 0]%nat).
Definition rw_rpc3 : nat -> RPc nat := upd_rpc nat rw_rpc2 0%nat (RDone [0; 0]%nat).

Definition rw_trace_state : St nat :=
  {| mem := list_set nat [0; 0]%nat 0 1%nat; wpc := WWriting 1; rpc := rw_rpc3 |}.

(** * Proofs *)

(** ** Number and iterator lemmas *)

Lemma as_i64_of_is_i64 (n : Number) :
  is_i64 n = true -> exists i, as_i64 n = Some i.
Proof.
  destruct n as [v|v|f]; simpl; intros H; try discriminate.
  - rewrite H. eauto.
  - eauto.
Qed.

Lemma as_f64_of_is_f64 (n : Number) :
  is_f64 n = true -> exists f, as_f64 n = Some f.
Proof. destruct n; simpl; eauto; discriminate. Qed.

Lemma iter_all_is_some_true (it rest : list Value) :
  iter_all_is_some it = (true, rest) ->
  rest = [] /\ (forall x, In x it -> from_json_value x <> None).
Proof.
  revert rest; induction it as [|x it IH]; simpl; intros rest H.
  - inversion H; subst. split; [reflexivity | intros _ []].
  - destruct (from_json_value x) eqn:Ex; simpl in H; [|discriminate].
    destruct (IH rest H) as [Hr Hall]. split; [exact Hr|].
    intros y [<-|Hy]; [rewrite Ex; discriminate | auto].
Qed.

Lemma iter_all_is_some_false (it rest : list Value) :
  iter_all_is_some it = (false, rest) ->
  exists x, In x it /\ from_json_value x = None.
Proof.
  revert rest; induction it as [|x it IH]; simpl; intros rest H.
  - discriminate.
  - destruct (from_json_value x) eqn:Ex; simpl in H.
    + destruct (IH rest H) as [y [Hy Hn]]. eauto.
    + exists x. auto.
Qed.

Ltac destruct_matches_in H :=
  repeat match type of H with
  | context [match ?x with _ => _ end] =>
      let E := fresh "E" in destruct x eqn:E
  end.

(** ** The per-entry conversion *)

(** A value node the conversion of [read_prefs_map] rejects: null, an
    object, a number that is neither i64 nor f64, or an array with an
    element [from_json_value] rejects. *)
Definition value_node_invalid (v : Value) : Prop :=
  match v with
  | VNull | VObject _ => True
  | VNumber n => is_i64 n = false /\ is_f64 n = false
  | VArray a => exists x, In x a /\ from_json_value x = None
  | VBool _ | VString _ => False
  end.

Section EntryLemmas.

Variable display : Value -> string.

Lemma convert_entry_ok (k : string) (v : Value) kv :
  convert_entry display k v = Ok kv ->
  fst kv = k /\ (forall a, snd kv = PArray a -> a = []).
Proof.
  unfold convert_entry; intros H.
  destruct v; destruct_matches_in H; inversion H; subst; simpl;
    split; try reflexivity; intros a0 Ha; try discriminate.
  inversion Ha; subst.
  match goal with
  | E : iter_all_is_some _ = (true, _) |- _ =>
      destruct (iter_all_is_some_true _ _ E) as [-> _]
  end.
  reflexivity.
Qed.

Lemma convert_entry_err (k : string) (v : Value) e :
  convert_entry display k v = Err e -> e = invalid_value display v.
Proof.
  unfold convert_entry; intros H.
  destruct v; destruct_matches_in H; inversion H; reflexivity.
Qed.

Lemma convert_entry_fails_iff (k : string) (v : Value) :
  (exists e, convert_entry display k v = Err e) <-> value_node_invalid v.
Proof.
  unfold convert_entry; destruct v as [|b|n|s|a|o]; simpl.
  - split; eauto.
  - split; [intros [e H]; discriminate | intros []].
  - split.
    + intros [e H].
      destruct (is_i64 n) eqn:Hi.
      * destruct (as_i64_of_is_i64 n Hi) as [i Hs]. rewrite Hs in H. discriminate.
      * destruct (is_f64 n) eqn:Hf; [|split; reflexivity].
        destruct (as_f64_of_is_f64 n Hf) as [f Hs]. rewrite Hs in H.
        destruct (as_i64 n); discriminate.
    + intros [Hi Hf]. rewrite Hi, Hf.
      destruct (as_i64 n), (as_f64 n); eauto.
  - split; [intros [e H]; discriminate | intros []].
  - destruct (iter_all_is_some a) as [[|] rest] eqn:E.
    + split; [intros [e H]; discriminate|].
      intros [x [Hx Hn]].
      destruct (iter_all_is_some_true _ _ E) as [_ Hall].
      exfalso. exact (Hall x Hx Hn).
    + split; [intros _ | eauto].
      exact (iter_all_is_some_false _ _ E).
  - split; eauto.
Qed.

Lemma collect_entries_forall2 (prefs : list (string * Value)) m :
  collect_entries display prefs = Ok m ->
  Forall2 (fun kv kv' => convert_entry display (fst kv) (snd kv) = Ok kv') prefs m.
Proof.
  revert m; induction prefs as [|[k v] rest IH]; simpl; intros m H.
  - inversion H. constructor.
  - destruct (convert_entry display k v) as [kv|e] eqn:Ec; [|discriminate].
    destruct (collect_entries display rest) as [m'|e] eqn:Er; [|discriminate].
    inversion H; subst. constructor; [exact Ec | exact (IH m' eq_refl)].
Qed.

Lemma collect_entries_first_invalid (prefs : list (string * Value)) :
  (exists k v, In (k, v) prefs /\ value_node_invalid v) ->
  exists k v, In (k, v) prefs /\ value_node_invalid v /\
    collect_entries display prefs = Err (invalid_value display v).
Proof.
  induction prefs as [|[k v] rest IH]; simpl; intros [k0 [v0 [Hin Hbad]]].
  - destruct Hin.
  - destruct (convert_entry display k v) as [kv|e] eqn:Ec.
    + assert (Hrest : exists k1 v1, In (k1, v1) rest /\ value_node_invalid v1).
      { destruct Hin as [Heq|Hin].
        - inversion Heq; subst.
          destruct (proj2 (convert_entry_fails_iff k0 v0) Hbad) as [e He].
          rewrite He in Ec. discriminate.
        - eauto. }
      destruct (IH Hrest) as [k1 [v1 [Hin1 [Hbad1 Hr]]]].
      exists k1, v1. rewrite Hr. auto.
    + exists k, v. repeat split; [left; reflexivity | |].
      * apply (convert_entry_fails_iff k v). eauto.
      * rewrite (convert_entry_err _ _ _ Ec). reflexivity.
Qed.

Lemma collect_entries_all_valid (prefs : list (string * Value)) :
  (forall k v, In (k, v) prefs -> ~ value_node_invalid v) ->
  exists m, collect_entries display prefs = Ok m.
Proof.
  induction prefs as [|[k v] rest IH]; simpl; intros Hok; [eauto|].
  destruct (convert_entry display k v) as [kv|e] eqn:Ec.
  - destruct IH as [m Hm]; [intros k' v' H; apply (Hok k' v'); auto|].
    rewrite Hm. eauto.
  - exfalso. apply (Hok k v (or_introl eq_refl)).
    apply (convert_entry_fails_iff k v). eauto.
Qed.

End EntryLemmas.

Lemma Forall2_in_l {A B} (R : A -> B -> Prop) l m x :
  Forall2 R l m -> In x l -> exists y, In y m /\ R x y.
Proof.
  induction 1 as [|a b l' m' Hab _ IH]; simpl; [intros []|].
  intros [<-|Hx]; [exists b; auto|].
  destruct (IH Hx) as [y [Hy Hr]]. eauto.
Qed.

Lemma Forall2_in_r {A B} (R : A -> B -> Prop) l m y :
  Forall2 R l m -> In y m -> exists x, In x l /\ R x y.
Proof.
  induction 1 as [|a b l' m' Hab _ IH]; simpl; [intros []|].
  intros [<-|Hy]; [exists a; auto|].
  destruct (IH Hy) as [x [Hx Hr]]. eauto.
Qed.

Lemma Forall2_map_fst (prefs : list (string * Value)) m
    (display : Value -> string) :
  Forall2 (fun kv kv' => convert_entry display (fst kv) (snd kv) = Ok kv') prefs m ->
  map fst m = map fst prefs.
Proof.
  induction 1 as [|[k v] kv' l' m' Hc _ IH]; simpl; [reflexivity|].
  rewrite IH. f_equal. exact (proj1 (convert_entry_ok _ _ _ _ Hc)).
Qed.

(** ** read_prefs_map: arrays *)

(** C1 (as stated, refuted): the claim that for every document and every
    key bound to an array whose elements all convert, [read_prefs_map]
    returns [Ok] with that key bound to the converted elements, fails on
    [{"a": [true], "b": null}]: the null entry makes the whole call fail. *)
Lemma read_prefs_map_array_claim_counterexample :
  ~ (forall from_str display txt obj k a,
        from_str txt = Ok obj ->
        In (k, VArray a) obj ->
        (forall x, In x a -> from_json_value x <> None) ->
        exists m ys,
          read_prefs_map from_str display txt = Ok m /\
          Forall2 (fun x y => from_json_value x = Some y) a ys /\
          In (k, PArray ys) m).
Proof.
  intros H.
  destruct (H (parse_to doc_array_null) show_value EmptyString doc_array_null
              "a"%string [VBool true] eq_refl (or_introl eq_refl))
    as [m [ys [Hr _]]].
  - intros x [<-|[]]. discriminate.
  - vm_compute in Hr. discriminate.
Qed.

(** On [{"a": [true]}] the call succeeds, and the array comes back
    empty: [Iterator::all] has consumed the element. *)
Example read_prefs_map_single_array :
  read_prefs_map (parse_to [("a"%string, VArray [VBool true])]) show_value EmptyString
  = Ok [("a"%string, PArray [])].
Proof. reflexivity. Qed.

(** C1 (amended): when every top-level value of the parsed object
    converts, [read_prefs_map] returns [Ok], and every key bound to an
    array node is bound in the result to an [Array] value kind. *)
Theorem read_prefs_map_arrays_bound
    (from_str : string -> result (list (string * Value)) JsonError)
    (display : Value -> string) (txt : string) (obj : list (string * Value)) :
  from_str txt = Ok obj ->
  (forall k v, In (k, v) obj -> ~ value_node_invalid v) ->
  exists m, read_prefs_map from_str display txt = Ok m /\
    forall k a, In (k, VArray a) obj -> exists ys, In (k, PArray ys) m.
Proof.
  intros Hp Hvalid. unfold read_prefs_map. rewrite Hp.
  destruct (collect_entries_all_valid display obj Hvalid) as [m Hm].
  exists m. split; [exact Hm|].
  intros k a Hin.
  destruct (Forall2_in_l _ _ _ _ (collect_entries_forall2 _ _ _ Hm) Hin)
    as [[k' v'] [Hin' Hc]].
  simpl in Hc. unfold convert_entry in Hc.
  destruct (iter_all_is_some a) as [[|] rest]; inversion Hc; subst.
  eauto.
Qed.

Lemma read_prefs_map_arrays_bound_witness :
  parse_to doc_array_float EmptyString = Ok doc_array_float /\
  exists m, read_prefs_map (parse_to doc_array_float) show_value EmptyString = Ok m /\
    forall k a, In (k, VArray a) doc_array_float -> exists ys, In (k, PArray ys) m.
Proof.
  split; [reflexivity|].
  apply (read_prefs_map_arrays_bound (parse_to doc_array_float) show_value
           EmptyString doc_array_float eq_refl).
  intros k v [H|[H|[]]]; inversion H; subst; simpl; [|intros [_ Hf]; discriminate].
  intros [x [Hx Hn]]. destruct Hx as [<-|[<-|[]]]; discriminate.
Defined.

(** C8: whenever [read_prefs_map] succeeds, every [Array] value kind of
    the returned mapping is empty: [array.all(..)] exhausts the element
    iterator before [array.flatten().collect()] runs. *)
Theorem read_prefs_map_arrays_empty
    (from_str : string -> result (list (string * Value)) JsonError)
    (display : Value -> string) (txt : string) m :
  read_prefs_map from_str display txt = Ok m ->
  forall k a, In (k, PArray a) m -> a = [].
Proof.
  unfold read_prefs_map. destruct (from_str txt) as [obj|e]; [|discriminate].
  intros Hm k a Hin.
  destruct (Forall2_in_r _ _ _ _ (collect_entries_forall2 _ _ _ Hm) Hin)
    as [[k' v'] [_ Hc]].
  exact (proj2 (convert_entry_ok _ _ _ _ Hc) a eq_refl).
Qed.

Lemma read_prefs_map_arrays_empty_witness :
  read_prefs_map (parse_to doc_array_float) show_value EmptyString
    = Ok [("a"%string, PArray []); ("b"%string, PFloat 1.5%float)] /\
  forall k a, In (k, PArray a) [("a"%string, PArray []); ("b"%string, PFloat 1.5%float)] ->
    a = [].
Proof.
  split; [reflexivity|].
  apply (read_prefs_map_arrays_empty (parse_to doc_array_float) show_value EmptyString).
  reflexivity.
Defined.

(** ** read_prefs_map: scalars *)

(** C3 (as stated, refuted): a number node is not always converted: the
    positive integer 2^63 (9223372036854775808), neither i64 nor f64 in
    serde_json, is rejected with [InvalidValue]. *)
Lemma convert_entry_number_claim_counterexample :
  ~ (forall (display : Value -> string) (k : string) (n : Number) (msg : string),
        convert_entry display k (VNumber n) <> Err (InvalidValue msg)).
Proof.
  intros H.
  apply (H show_value "n"%string (PosInt (2 ^ 63)) "Invalid value: <value>"%string).
  vm_compute. reflexivity.
Qed.

(** C3 (amended): the conversion in [read_prefs_map] maps every boolean
    node to [Bool] with the same boolean, every string node to [Str] with
    the same string, every negative integer and every positive integer up
    to i64::MAX to [Int] with the same integer, and every floating-point
    number to [Float] with the same float; a positive integer above
    i64::MAX is rejected with [InvalidValue]. *)
Theorem convert_entry_scalars (display : Value -> string) (k : string) :
  (forall b, convert_entry display k (VBool b) = Ok (k, PBool b)) /\
  (forall s, convert_entry display k (VString s) = Ok (k, PStr s)) /\
  (forall v, convert_entry display k (VNumber (NegInt v)) = Ok (k, PInt v)) /\
  (forall v, convert_entry display k (VNumber (PosInt v)) =
     if v <=? i64_max then Ok (k, PInt v)
     else Err (InvalidValue ("Invalid value: " ++ display (VNumber (PosInt v))))) /\
  (forall f, convert_entry display k (VNumber (NFloat f)) = Ok (k, PFloat f)).
Proof.
  repeat split; intros; try reflexivity.
  unfold convert_entry; simpl. destruct (v <=? i64_max); reflexivity.
Qed.

(** ** read_prefs_map: errors *)

(** C4: if the parsed object holds a value node the conversion rejects
    (null, an object, a number outside i64/f64, or an array with a
    non-convertible element), [read_prefs_map] returns no mapping but an
    [InvalidValue] error whose message renders one such offending value
    of the document. *)
Theorem read_prefs_map_rejects_document
    (from_str : string -> result (list (string * Value)) JsonError)
    (display : Value -> string) (txt : string) (obj : list (string * Value)) :
  from_str txt = Ok obj ->
  (exists k v, In (k, v) obj /\ value_node_invalid v) ->
  exists k v, In (k, v) obj /\ value_node_invalid v /\
    read_prefs_map from_str display txt
      = Err (InvalidValue ("Invalid value: " ++ display v)).
Proof.
  intros Hp Hbad. unfold read_prefs_map. rewrite Hp.
  exact (collect_entries_first_invalid display obj Hbad).
Qed.

Lemma read_prefs_map_rejects_document_witness :
  exists k v, In (k, v) doc_array_object /\ value_node_invalid v /\
    read_prefs_map (parse_to doc_array_object) show_value EmptyString
      = Err (InvalidValue ("Invalid value: " ++ show_value v)).
Proof.
  apply (read_prefs_map_rejects_document (parse_to doc_array_object) show_value
           EmptyString doc_array_object eq_refl).
  exists "a"%string, (VArray [VBool true; VObject []]).
  split; [left; reflexivity|].
  exists (VObject []). split; [right; left; reflexivity | reflexivity].
Defined.

(** C6: when the text does not parse as a string-keyed JSON object,
    [read_prefs_map] returns [JsonParseErr] carrying the parser's error. *)
Theorem read_prefs_map_parse_error
    (from_str : string -> result (list (string * Value)) JsonError)
    (display : Value -> string) (txt : string) (e : JsonError) :
  from_str txt = Err e ->
  read_prefs_map from_str display txt = Err (JsonParseErr e).
Proof. intros Hp. unfold read_prefs_map. rewrite Hp. reflexivity. Qed.

Lemma read_prefs_map_parse_error_witness :
  read_prefs_map (parse_fails "expected value at line 1 column 1") show_value "{"%string
  = Err (JsonParseErr {| json_error_msg := "expected value at line 1 column 1" |}).
Proof.
  apply (read_prefs_map_parse_error (parse_fails "expected value at line 1 column 1")
           show_value "{"%string).
  reflexivity.
Defined.

(** ** read_prefs_map: keys *)

(** C9: [read_prefs_map] is a function of its text alone (no store is
    read or written); when it returns [Ok], the keys of the mapping are
    exactly the top-level keys of the parsed object, unchanged and in its
    order. *)
Theorem read_prefs_map_keys
    (from_str : string -> result (list (string * Value)) JsonError)
    (display : Value -> string) (txt : string) (obj : list (string * Value)) m :
  from_str txt = Ok obj ->
  read_prefs_map from_str display txt = Ok m ->
  map fst m = map fst obj.
Proof.
  intros Hp. unfold read_prefs_map. rewrite Hp. intros Hm.
  exact (Forall2_map_fst _ _ _ (collect_entries_forall2 _ _ _ Hm)).
Qed.

Lemma read_prefs_map_keys_witness :
  map fst [("a"%string, PArray []); ("b"%string, PFloat 1.5%float)]
  = map fst doc_array_float.
Proof.
  apply (read_prefs_map_keys (parse_to doc_array_float) show_value EmptyString
           doc_array_float); reflexivity.
Defined.

(** ** add_user_prefs *)

Section StoreProofs.

Variable Prefs : Type.
Variable accessors : string -> option (Accessor Prefs).
Variable debug_pref_error : PrefError -> string.

Lemma set_all_app (pre post : list (string * PrefValue)) (st : Prefs) :
  set_all Prefs accessors (pre ++ post) st =
  match set_all Prefs accessors pre st with
  | (s1, Ok tt) => set_all Prefs accessors post s1
  | (s1, Err e) => (s1, Err e)
  end.
Proof.
  revert st; induction pre as [|[k v] pre IH]; simpl; intros st; [reflexivity|].
  destruct (pref_set Prefs accessors st k v); [apply IH | reflexivity].
Qed.

Lemma set_all_err_iff (prefs : list (string * PrefValue)) (st s : Prefs) e :
  set_all Prefs accessors prefs st = (s, Err e) <->
  exists pre k v post,
    prefs = pre ++ (k, v) :: post /\
    set_all Prefs accessors pre st = (s, Ok tt) /\
    pref_set Prefs accessors s k v = Err e.
Proof.
  split.
  - revert st; induction prefs as [|[k v] rest IH]; simpl; intros st H;
      [discriminate|].
    destruct (pref_set Prefs accessors st k v) as [s1|e'] eqn:Es.
    + destruct (IH s1 H) as (pre & k' & v' & post & -> & Hpre & Hset).
      exists ((k, v) :: pre), k', v', post. simpl. rewrite Es. auto.
    + inversion H; subst. exists [], k, v, rest. auto.
  - intros (pre & k & v & post & -> & Hpre & Hset).
    rewrite set_all_app, Hpre. simpl. rewrite Hset. reflexivity.
Qed.

End StoreProofs.

(** C2 (as stated, refuted): a failure of [set_all] inside
    [add_user_prefs] is not returned to the caller: with an empty accessor
    table, [add_user_prefs {"no-such-pref": true}] panics on the
    [NoSuchPref] error. *)
Lemma add_user_prefs_claim_counterexample :
  ~ (forall (Prefs : Type) (accessors : string -> option (Accessor Prefs))
            (debug_pref_error : PrefError -> string) prefs st s e,
        set_all Prefs accessors prefs st = (s, Err e) ->
        panics (snd (add_user_prefs Prefs accessors debug_pref_error prefs st)) = false).
Proof.
  intros H.
  specialize (H unit (fun _ => None) (fun _ => EmptyString)
                [("no-such-pref"%string, PBool true)] tt tt
                (NoSuchPref "no-such-pref"%string) eq_refl).
  discriminate H.
Qed.

(** C2 (amended): [add_user_prefs] returns normally exactly when
    [set_all] applies every entry, leaving [PREFS] as [set_all] left it.
    It panics with ["Error setting preference: <error>"] exactly when
    some entry fails; [PREFS] is then left with every entry before the
    failing one applied and the failing one not applied.  [read_prefs_map]
    returns its errors as values: [JsonParseErr] for a text that does not
    parse, [InvalidValue] for a value the conversion rejects. *)
Theorem add_user_prefs_outcome
    (Prefs : Type) (accessors : string -> option (Accessor Prefs))
    (debug_pref_error : PrefError -> string)
    (prefs : list (string * PrefValue)) (st : Prefs) :
  (forall st',
     add_user_prefs Prefs accessors debug_pref_error prefs st = (st', Returns tt)
     <-> set_all Prefs accessors prefs st = (st', Ok tt)) /\
  (forall st' msg,
     add_user_prefs Prefs accessors debug_pref_error prefs st = (st', Panics msg)
     <-> exists pre k v post e,
           prefs = pre ++ (k, v) :: post /\
           set_all Prefs accessors pre st = (st', Ok tt) /\
           pref_set Prefs accessors st' k v = Err e /\
           msg = ("Error setting preference: " ++ debug_pref_error e)%string) /\
  (forall (from_str : string -> result (list (string * Value)) JsonError)
          (display : Value -> string) (txt : string),
     (forall je, from_str txt = Err je ->
        read_prefs_map from_str display txt = Err (JsonParseErr je)) /\
     (forall obj, from_str txt = Ok obj ->
        (exists k v, In (k, v) obj /\ value_node_invalid v) ->
        exists v, read_prefs_map from_str display txt
                    = Err (InvalidValue ("Invalid value: " ++ display v)))).
Proof.
  unfold add_user_prefs. split; [|split].
  - intros st'. destruct (set_all Prefs accessors prefs st) as [s [[]|er]];
      split; intros H; inversion H; subst; reflexivity.
  - intros st' msg. destruct (set_all Prefs accessors prefs st) as [s [[]|er]] eqn:E;
      split.
    + intros H. inversion H.
    + intros (pre & k & v & post & e & Hp & Hpre & Hset & Hm).
      rewrite (proj2 (set_all_err_iff Prefs accessors prefs st st' e)
                 (ex_intro _ pre (ex_intro _ k (ex_intro _ v (ex_intro _ post
                   (conj Hp (conj Hpre Hset))))))) in E.
      discriminate E.
    + intros H. inversion H; subst.
      destruct (proj1 (set_all_err_iff Prefs accessors prefs st st' er) E)
        as (pre & k & v & post & Hp & Hpre & Hset).
      exists pre, k, v, post, er. auto.
    + intros (pre & k & v & post & e & Hp & Hpre & Hset & ->).
      rewrite (proj2 (set_all_err_iff Prefs accessors prefs st st' e)
                 (ex_intro _ pre (ex_intro _ k (ex_intro _ v (ex_intro _ post
                   (conj Hp (conj Hpre Hset))))))) in E.
      inversion E; subst. reflexivity.
  - intros from_str display txt. split.
    + intros je H. unfold read_prefs_map. rewrite H. reflexivity.
    + intros obj H Hbad. unfold read_prefs_map. rewrite H.
      destruct (collect_entries_first_invalid display obj Hbad) as (k & v & _ & _ & He).
      exists v. exact He.
Qed.

(** ** PREFS *)

(** C5: if the bundled preferences resource does not deserialise into
    the schema type, the first access to the store panics with the
    diagnostic ["Failed to initialize config preferences.: <error>"]
    and yields no store. *)
Theorem pref_map_first_access_panics
    (Prefs : Type) (debug_json_error : JsonError -> string)
    (from_str_prefs : string -> result Prefs JsonError)
    (preferences_resource : string) (e : JsonError) :
  from_str_prefs preferences_resource = Err e ->
  pref_map Prefs debug_json_error from_str_prefs preferences_resource None
  = Panics ("Failed to initialize config preferences.: " ++ debug_json_error e).
Proof.
  intros H. unfold pref_map, init_prefs. rewrite H. reflexivity.
Qed.

Lemma pref_map_first_access_panics_witness :
  pref_map unit json_error_msg (fun _ => Err {| json_error_msg := "EOF" |})
    "{"%string None
  = Panics "Failed to initialize config preferences.: EOF".
Proof.
  exact (pref_map_first_access_panics unit json_error_msg
           (fun _ => Err {| json_error_msg := "EOF" |}) "{"%string
           {| json_error_msg := "EOF" |} eq_refl).
Defined.

(** ** The reader/writer discipline *)

Section RwLockProofs.

Variable W : Type.
Variables old new : list W.
Hypothesis same_shape : List.length old = List.length new.

Lemma list_set_app (a c : list W) (b x : W) :
  list_set W (a ++ b :: c) (List.length a) x = a ++ x :: c.
Proof. induction a as [|h a IH]; simpl; [reflexivity | rewrite IH; reflexivity]. Qed.

Lemma firstn_S_nth_error (l : list W) (i : nat) (x : W) :
  nth_error l i = Some x -> firstn (S i) l = firstn i l ++ [x].
Proof.
  revert l; induction i as [|i IH]; intros [|h l] H; simpl in *;
    try discriminate.
  - inversion H; reflexivity.
  - rewrite (IH l H). reflexivity.
Qed.

Lemma skipn_lt (l : list W) (i : nat) :
  (i < List.length l)%nat -> exists b, skipn i l = b :: skipn (S i) l.
Proof.
  revert l; induction i as [|i IH]; intros [|h l] H; simpl in *; try lia.
  - eauto.
  - apply IH. lia.
Qed.

Lemma length_firstn_le (l : list W) (i : nat) :
  (i <= List.length l)%nat -> List.length (firstn i l) = i.
Proof. intros H. rewrite length_firstn. lia. Qed.

Lemma upd_rpc_eq (f : nat -> RPc W) r p r' :
  upd_rpc W f r p r' = if Nat.eqb r' r then p else f r'.
Proof. reflexivity. Qed.

(** The invariant of the reachable states. *)
Definition rw_inv (st : St W) : Prop :=
  (wpc W st = WIdle -> mem W st = old) /\
  (forall i, wpc W st = WWriting i ->
     (i <= List.length new)%nat /\
     mem W st = firstn i new ++ skipn i old /\
     forall r, reader_holds W (rpc W st r) = false) /\
  (wpc W st = WDone -> mem W st = new) /\
  (forall r s, rpc W st r = RCloned s \/ rpc W st r = RDone s -> s = old \/ s = new).

Lemma rw_inv_init : rw_inv (init_st W old).
Proof.
  repeat split; simpl; intros; try discriminate; try reflexivity.
  destruct H as [H|H]; discriminate.
Qed.

Ltac split_goal :=
  repeat (match goal with
          | |- _ /\ _ => split
          | |- _ -> _ => intro
          | |- forall _, _ => intro
          end).

Lemma rw_inv_step (st st' : St W) : rw_inv st -> step W new st st' -> rw_inv st'.
Proof.
  intros (I1 & I2 & I3 & I4) Hs.
  inversion Hs as
    [m f Hnone | m i x f Hx | m i f Hi | m w f r Hw Hr | m w f r Hr | m w f r s Hr];
    subst; simpl in *; unfold rw_inv; simpl; split_goal;
    try discriminate; try solve [eauto].
  - (* write lock: the bound *)
    inversion H; subst. lia.
  - (* write lock: nothing written yet *)
    inversion H; subst. simpl. apply I1. reflexivity.
  - (* write word: the bound *)
    assert (Hlt : (i < List.length new)%nat)
      by (apply nth_error_Some; rewrite Hx; discriminate).
    inversion H; subst. lia.
  - (* write word: one more word of the new value *)
    inversion H; subst.
    destruct (I2 i eq_refl) as (Hle & Hm & _).
    assert (Hlt : (i < List.length new)%nat)
      by (apply nth_error_Some; rewrite Hx; discriminate).
    destruct (skipn_lt old i ltac:(lia)) as [b Hb].
    pose proof (list_set_app (firstn i new) (skipn (S i) old) b x) as Hls.
    rewrite (length_firstn_le new i ltac:(lia)) in Hls.
    rewrite Hm, Hb, Hls, (firstn_S_nth_error new i x Hx), <- app_assoc.
    reflexivity.
  - (* write word: still no reader *)
    exact (proj2 (proj2 (I2 i eq_refl)) r).
  - (* write unlock: the whole new value *)
    destruct (I2 _ eq_refl) as (_ & Hm & _).
    rewrite Hm, firstn_all, skipn_all2; [apply app_nil_r | lia].
  - (* read lock: no writer *) subst w. discriminate.
  - subst w. discriminate.
  - subst w. discriminate.
  - (* read lock: snapshots *)
    rewrite upd_rpc_eq in H. destruct (Nat.eqb r0 r).
    + destruct H; discriminate.
    + eauto.
  - (* read clone: no writer, since this reader holds the lock *)
    subst w. specialize (proj2 (proj2 (I2 i eq_refl)) r). rewrite Hr. discriminate.
  - subst w. specialize (proj2 (proj2 (I2 i eq_refl)) r). rewrite Hr. discriminate.
  - subst w. specialize (proj2 (proj2 (I2 i eq_refl)) r). rewrite Hr. discriminate.
  - (* read clone: the clone is the old or the new value *)
    rewrite upd_rpc_eq in H. destruct (Nat.eqb r0 r); [|eauto].
    destruct H as [H|H]; inversion H; subst.
    destruct w as [|i|].
    + left. apply I1. reflexivity.
    + specialize (proj2 (proj2 (I2 i eq_refl)) r). rewrite Hr. discriminate.
    + right. apply I3. reflexivity.
  - (* read unlock *)
    subst w. specialize (proj2 (proj2 (I2 i eq_refl)) r). rewrite Hr. discriminate.
  - subst w. specialize (proj2 (proj2 (I2 i eq_refl)) r). rewrite Hr. discriminate.
  - subst w. specialize (proj2 (proj2 (I2 i eq_refl)) r). rewrite Hr. discriminate.
  - rewrite upd_rpc_eq in H. destruct (Nat.eqb r0 r); [|eauto].
    destruct H as [H|H]; inversion H; subst. eauto.
Qed.

(** C7: in every reachable interleaving of [pref!] readers with one
    [set_pref!] writer, the value a reader clones (and returns) is the
    field's value from before the write or the value fully written,
    never a partly written one. *)
Theorem rwlock_reads_whole_values (st : St W) :
  reachable W old new st ->
  forall r s, rpc W st r = RCloned s \/ rpc W st r = RDone s -> s = old \/ s = new.
Proof.
  intros Hr.
  assert (Hinv : rw_inv st).
  { induction Hr as [|s1 s2 _ IH Hs]; [exact rw_inv_init | exact (rw_inv_step s1 s2 IH Hs)]. }
  exact (proj2 (proj2 (proj2 Hinv))).
Qed.

End RwLockProofs.

Lemma rw_trace_reachable : reachable nat [0; 0]%nat [1; 1]%nat rw_trace_state.
Proof.
  apply (reach_step nat _ _ {| mem := [0; 0]%nat; wpc := WWriting 0; rpc := rw_rpc3 |});
    [| apply step_write_word; reflexivity].
  apply (reach_step nat _ _ {| mem := [0; 0]%nat; wpc := WIdle; rpc := rw_rpc3 |});
    [| apply step_write_lock; intros r; unfold rw_rpc3, rw_rpc2, rw_rpc1, upd_rpc;
       destruct (Nat.eqb r 0%nat); reflexivity].
  apply (reach_step nat _ _ {| mem := [0; 0]%nat; wpc := WIdle; rpc := rw_rpc2 |});
    [| apply (step_read_unlock nat _ _ _ _ 0%nat [0; 0]%nat); reflexivity].
  apply (reach_step nat _ _ {| mem := [0; 0]%nat; wpc := WIdle; rpc := rw_rpc1 |});
    [| apply (step_read_clone nat _ _ _ _ 0%nat); reflexivity].
  apply (reach_step nat _ _ (init_st nat [0; 0]%nat));
    [apply reach_init | apply (step_read_lock nat _ _ _ _ 0%nat); reflexivity].
Qed.

Lemma rwlock_reads_whole_values_witness :
  reachable nat [0; 0]%nat [1; 1]%nat rw_trace_state /\
  ([0; 0]%nat = [0; 0]%nat \/ [0; 0]%nat = [1; 1]%nat).
Proof.
  split; [exact rw_trace_reachable|].
  apply (rwlock_reads_whole_values nat [0; 0]%nat [1; 1]%nat eq_refl rw_trace_state
           rw_trace_reachable 0%nat [0; 0]%nat).
  right. reflexivity.
Defined.

(** ** default_layout_threads *)

(** C10: for every usize cpu count, [default_layout_threads] is at least
    1 (and a positive i64); it equals [max(cpus * 3 / 4, 1)] whenever
    [cpus * 3] does not overflow; and a [Layout] whose [threads] field is
    absent takes that positive value. *)
Theorem default_layout_threads_positive (num_cpus : Z) :
  0 <= num_cpus < u64_modulus ->
  1 <= default_layout_threads num_cpus <= i64_max /\
  (num_cpus * 3 < u64_modulus ->
     default_layout_threads num_cpus = Z.max (num_cpus * 3 / 4) 1) /\
  1 <= layout_threads None num_cpus.
Proof.
  intros Hr. unfold layout_threads, default_layout_threads, as_i64_of_usize, usize_wrap.
  assert (Hm : 0 <= (num_cpus * 3) mod u64_modulus < u64_modulus)
    by (apply Z.mod_pos_bound; unfold u64_modulus; lia).
  assert (Hd : 0 <= (num_cpus * 3) mod u64_modulus / 4 < 2 ^ 62).
  { split; [apply Z.div_pos; lia|].
    apply Z.div_lt_upper_bound; [lia|]. unfold u64_modulus in *. lia. }
  assert (Hle : (Z.max ((num_cpus * 3) mod u64_modulus / 4) 1 <=? i64_max) = true).
  { apply Z.leb_le. unfold i64_max. lia. }
  rewrite Hle. split; [unfold i64_max; lia|]. split; [|lia].
  intros Hno. rewrite Z.mod_small; [reflexivity | lia].
Qed.

Lemma default_layout_threads_positive_witness :
  1 <= default_layout_threads 8 <= i64_max /\
  (8 * 3 < u64_modulus -> default_layout_threads 8 = Z.max (8 * 3 / 4) 1) /\
  1 <= layout_threads None 8.
Proof.
  apply (default_layout_threads_positive 8). unfold u64_modulus. lia.
Defined.

(** * Further properties of the code *)

(** ** read_prefs_map *)

Lemma convert_entry_image (display : Value -> string) (k : string) (v : Value) kv :
  convert_entry display k v = Ok kv -> fst kv = k /\ value_image v (snd kv).
Proof.
  intros H. split; [exact (proj1 (convert_entry_ok _ _ _ _ H))|].
  unfold convert_entry in H.
  destruct v as [|b|n|s|a|o]; simpl.
  - discriminate.
  - inversion H; reflexivity.
  - destruct n as [z|z|f]; simpl in H |- *.
    + destruct (z <=? i64_max); inversion H; subst; left; eauto.
    + inversion H; subst. left; eauto.
    + inversion H; subst. right; eauto.
  - inversion H; reflexivity.
  - destruct (iter_all_is_some a) as [[|] rest] eqn:E; inversion H; subst; simpl.
    destruct (iter_all_is_some_true _ _ E) as [-> _]. reflexivity.
  - discriminate.
Qed.

(** read_prefs_map succeeds exactly when the text parses and no top-level
    value node is one the conversion rejects. *)
Theorem read_prefs_map_ok_iff
    (from_str : string -> result (list (string * Value)) JsonError)
    (display : Value -> string) (txt : string) :
  (exists m, read_prefs_map from_str display txt = Ok m) <->
  (exists obj, from_str txt = Ok obj /\
     forall k v, In (k, v) obj -> ~ value_node_invalid v).
Proof.
  unfold read_prefs_map. destruct (from_str txt) as [obj|e].
  - split.
    + intros [m Hm]. exists obj. split; [reflexivity|].
      intros k v Hin Hbad.
      destruct (collect_entries_first_invalid display obj (ex_intro _ k (ex_intro _ v (conj Hin Hbad))))
        as (k' & v' & _ & _ & He).
      rewrite He in Hm. discriminate.
    + intros [obj' [Heq Hok]]. inversion Heq; subst.
      exact (collect_entries_all_valid display obj' Hok).
  - split; [intros [m Hm]; discriminate | intros [obj [Heq _]]; discriminate].
Qed.

(** The errors of read_prefs_map are only [JsonParseErr] and
    [InvalidValue]; it never reports [NoSuchPref] or [TypeMismatch]. *)
Theorem read_prefs_map_error_kinds
    (from_str : string -> result (list (string * Value)) JsonError)
    (display : Value -> string) (txt : string) (e : PrefError) :
  read_prefs_map from_str display txt = Err e ->
  (exists je, e = JsonParseErr je) \/ (exists msg, e = InvalidValue msg).
Proof.
  unfold read_prefs_map. destruct (from_str txt) as [obj|je]; intros H.
  - right. clear from_str txt. revert H. induction obj as [|[k v] rest IH]; simpl;
      intros H; [discriminate|].
    destruct (convert_entry display k v) as [kv|e'] eqn:Ec.
    + destruct (collect_entries display rest) as [m|e''] eqn:Er; [discriminate|].
      inversion H; subst. exact (IH eq_refl).
    + inversion H; subst. rewrite (convert_entry_err _ _ _ _ Ec). unfold invalid_value. eauto.
  - left. inversion H. eauto.
Qed.

Lemma read_prefs_map_error_kinds_witness :
  (exists je, InvalidValue "Invalid value: <value>"%string = JsonParseErr je) \/
  (exists msg, InvalidValue "Invalid value: <value>"%string = InvalidValue msg).
Proof.
  exact (read_prefs_map_error_kinds (parse_to doc_array_null) show_value EmptyString
           (InvalidValue "Invalid value: <value>"%string) eq_refl).
Defined.

(** The [InvalidValue] error reported is that of the first rejected entry
    in the map's iteration order: entries before it that convert do not
    change the outcome, and entries after it are not looked at. *)
Theorem read_prefs_map_first_invalid
    (from_str : string -> result (list (string * Value)) JsonError)
    (display : Value -> string) (txt : string)
    (pre post : list (string * Value)) (k : string) (v : Value) :
  from_str txt = Ok (pre ++ (k, v) :: post) ->
  (forall k' v', In (k', v') pre -> ~ value_node_invalid v') ->
  value_node_invalid v ->
  read_prefs_map from_str display txt
    = Err (InvalidValue ("Invalid value: " ++ display v)).
Proof.
  intros Hp Hpre Hbad. unfold read_prefs_map. rewrite Hp. clear Hp.
  induction pre as [|[k0 v0] pre IH]; simpl.
  - destruct (proj2 (convert_entry_fails_iff display k v) Hbad) as [e He].
    rewrite He, (convert_entry_err _ _ _ _ He). reflexivity.
  - destruct (convert_entry display k0 v0) as [kv|e] eqn:Ec.
    + rewrite IH; [reflexivity|]. intros k' v' H. exact (Hpre k' v' (or_intror H)).
    + exfalso. apply (Hpre k0 v0 (or_introl eq_refl)).
      apply (convert_entry_fails_iff display k0 v0). eauto.
Qed.

Lemma read_prefs_map_first_invalid_witness :
  read_prefs_map (parse_to doc_array_null) show_value EmptyString
    = Err (InvalidValue ("Invalid value: " ++ show_value VNull)).
Proof.
  apply (read_prefs_map_first_invalid (parse_to doc_array_null) show_value EmptyString
           [("a"%string, VArray [VBool true])] [] "b"%string VNull eq_refl).
  - intros k' v' [H|[]]. inversion H; subst. simpl.
    intros [x [[<-|[]] Hn]]. discriminate.
  - exact I.
Defined.

(** On success, the mapping is the parsed object entry by entry: the same
    key, and the value's image (same boolean, string, i64 or f64; an
    empty [Array] for an array). *)
Theorem read_prefs_map_values
    (from_str : string -> result (list (string * Value)) JsonError)
    (display : Value -> string) (txt : string) (obj : list (string * Value)) m :
  from_str txt = Ok obj ->
  read_prefs_map from_str display txt = Ok m ->
  Forall2 (fun kv kp => fst kp = fst kv /\ value_image (snd kv) (snd kp)) obj m.
Proof.
  intros Hp. unfold read_prefs_map. rewrite Hp. intros Hm.
  generalize (collect_entries_forall2 _ _ _ Hm).
  apply Forall2_impl. intros [k v] kp Hc. exact (convert_entry_image _ _ _ _ Hc).
Qed.

Lemma read_prefs_map_values_witness :
  Forall2 (fun kv kp => fst kp = fst kv /\ value_image (snd kv) (snd kp))
    doc_array_float [("a"%string, PArray []); ("b"%string, PFloat 1.5%float)].
Proof.
  apply (read_prefs_map_values (parse_to doc_array_float) show_value EmptyString
           doc_array_float); reflexivity.
Defined.

(** ** default_layout_threads: bounds and monotonicity *)

Lemma default_layout_threads_no_wrap (num_cpus : Z) :
  0 <= num_cpus -> num_cpus * 3 < u64_modulus ->
  default_layout_threads num_cpus = Z.max (num_cpus * 3 / 4) 1.
Proof.
  intros H0 H1.
  exact (proj1 (proj2 (default_layout_threads_positive num_cpus
                         ltac:(unfold u64_modulus in *; lia))) H1).
Qed.

(** With at least one cpu, the default never asks for more layout threads
    than there are cpus. *)
Theorem default_layout_threads_at_most_cpus (num_cpus : Z) :
  1 <= num_cpus < u64_modulus ->
  default_layout_threads num_cpus <= num_cpus.
Proof.
  intros Hr.
  destruct (Z.lt_ge_cases (num_cpus * 3) u64_modulus) as [Hno|Hov].
  - rewrite (default_layout_threads_no_wrap num_cpus ltac:(lia) Hno).
    assert (num_cpus * 3 / 4 <= num_cpus).
    { apply Z.div_le_upper_bound; lia. }
    lia.
  - unfold default_layout_threads, as_i64_of_usize, usize_wrap.
    assert (Hm : 0 <= (num_cpus * 3) mod u64_modulus < u64_modulus)
      by (apply Z.mod_pos_bound; unfold u64_modulus; lia).
    assert (Hd : (num_cpus * 3) mod u64_modulus / 4 < 2 ^ 62).
    { apply Z.div_lt_upper_bound; [lia|]. unfold u64_modulus in *. lia. }
    assert (Hd0 : 0 <= (num_cpus * 3) mod u64_modulus / 4) by (apply Z.div_pos; lia).
    assert (Hle : (Z.max ((num_cpus * 3) mod u64_modulus / 4) 1 <=? i64_max) = true)
      by (apply Z.leb_le; unfold i64_max; lia).
    rewrite Hle. unfold u64_modulus in *. lia.
Qed.

Lemma default_layout_threads_at_most_cpus_witness :
  default_layout_threads 1 <= 1.
Proof.
  apply (default_layout_threads_at_most_cpus 1). unfold u64_modulus. lia.
Defined.

(** Without overflow, more cpus never give fewer layout threads. *)
Theorem default_layout_threads_monotone (a b : Z) :
  0 <= a <= b -> b * 3 < u64_modulus ->
  default_layout_threads a <= default_layout_threads b.
Proof.
  intros Hab Hb.
  rewrite (default_layout_threads_no_wrap a ltac:(lia) ltac:(lia)),
          (default_layout_threads_no_wrap b ltac:(lia) Hb).
  assert (a * 3 / 4 <= b * 3 / 4) by (apply Z.div_le_mono; lia).
  lia.
Qed.

Lemma default_layout_threads_monotone_witness :
  default_layout_threads 4 <= default_layout_threads 16.
Proof.
  apply (default_layout_threads_monotone 4 16); [lia | unfold u64_modulus; lia].
Defined.

(** ** add_user_prefs: a key missing from the accessor table *)


